(** * mm-network-analyzer: a shallow embedding of [main.go]

    The Go program runs a list of diagnostic probes concurrently, collects
    their outputs and errors in an [analyzer] guarded by two mutexes, renders
    the errors into [errors.txt], writes every collected file into a zip
    archive and closes it.  This file embeds those functions and proves the
    properties of the collector. *)

From Stdlib Require Import String Ascii Strings.Byte ZArith Lia Permutation.
From stdpp Require Import base list.

Open Scope list_scope.

Definition bytes := list byte.
Definition bytes_of (s : string) : bytes := list_byte_of_string s.

(** ** Errors of [github.com/pkg/errors]

    A base error is the error returned by the standard library (os, net,
    exec); [errors.Wrap] and [errors.Wrapf] build
    [withStack{withMessage{err, msg}, callers()}].  A stack is the list of
    rendered frames captured by [callers()]. *)
Inductive error :=
  | EBase (msg : string)
  | EWithMessage (cause : error) (msg : string)
  | EWithStack (cause : error) (stack : list string).

Definition Wrap (stack : list string) (err : error) (msg : string) : error :=
  EWithStack (EWithMessage err msg) stack.

(** [err.Error()] *)
Fixpoint Error (e : error) : string :=
  match e with
  | EBase m => m
  | EWithMessage c m => (m ++ ": " ++ Error c)%string
  | EWithStack c _ => Error c
  end.

(** [fmt.Sprintf("%+v", e)]: [withMessage] prints its cause, a newline and
    its message; [withStack] prints its cause then each frame after a
    newline. *)
Fixpoint format_plus_v (e : error) : string :=
  match e with
  | EBase m => m
  | EWithMessage c m => (format_plus_v c ++ String "010" "" ++ m)%string
  | EWithStack c st =>
      (format_plus_v c ++ fold_right (fun fr acc => String "010" fr ++ acc) "" st)%string
  end.

(** ** The analyzer and its collected files *)

Record zipFile := mkZipFile { name : string; contents : bytes }.

(** The zip writer: the entries created so far (name and data written to
    it), the number of calls made on it ([Create], entry [Write], [Close]),
    and the outcome each call reports ([None]: it succeeds). The writer
    goes through a 4096-byte [bufio.Writer], so a call reports a disk error
    only when it makes that buffer flush to the file (or after an earlier
    flush failed); the oracle ranges over all such outcomes. *)
Record zipWriter := mkZipWriter {
  zw_entries : list (string * bytes);
  zw_tick : nat;
  zw_fault : nat -> option error;
  zw_closed : bool
}.

(** An open [*os.File]: the bytes of the file on disk and the offset the
    next write goes to. *)
Record os_file := mkOsFile { f_data : bytes; f_off : nat; f_closed : bool }.

(** The mutexes only order the appends; their effect is that each
    [storeFile] / [storeError] is one atomic step. *)
Record analyzer := mkAnalyzer {
  zipWriter_ : zipWriter;
  zipFile_ : os_file;
  errors : list error;
  zipFiles : list zipFile
}.

(** A Go [*analyzer]: [None] is the nil pointer. *)
Definition analyzer_ptr := option analyzer.

(** Outcome of a Go statement that may panic. *)
Inductive panicking (A : Type) :=
  | Panic (msg : string)
  | Value (a : A).
Arguments Panic {A} msg.
Arguments Value {A} a.

Definition nil_deref : string := "runtime error: invalid memory address or nil pointer dereference".

Definition deref (p : analyzer_ptr) : panicking analyzer :=
  match p with
  | None => Panic nil_deref
  | Some a => Value a
  end.

Definition set_zipFiles (a : analyzer) (zf : list zipFile) : analyzer :=
  mkAnalyzer (zipWriter_ a) (zipFile_ a) (errors a) zf.
Definition set_errors (a : analyzer) (es : list error) : analyzer :=
  mkAnalyzer (zipWriter_ a) (zipFile_ a) es (zipFiles a).
Definition set_zipWriter (a : analyzer) (w : zipWriter) : analyzer :=
  mkAnalyzer w (zipFile_ a) (errors a) (zipFiles a).

(** [func (a *analyzer) storeFile(name string, contents []byte)] *)
Definition storeFile (p : analyzer_ptr) (nm : string) (c : bytes) : panicking analyzer :=
  match deref p with
  | Panic m => Panic m
  | Value a => Value (set_zipFiles a (zipFiles a ++ [mkZipFile nm c]))
  end.

(** [func (a *analyzer) storeError(err error)] *)
Definition storeError (p : analyzer_ptr) (e : error) : panicking analyzer :=
  match deref p with
  | Panic m => Panic m
  | Value a => Value (set_errors a (errors a ++ [e]))
  end.

(** ** Probes

    A probe ([func()] in [tasks]) performs its external I/O and then a
    sequence of calls on the analyzer.  The I/O results come from the
    world at the time the probe runs; the calls are the [store_op]s. *)
Inductive store_op :=
  | OpStoreFile (nm : string) (c : bytes)
  | OpStoreError (e : error).

Definition run_op (p : analyzer_ptr) (op : store_op) : panicking analyzer :=
  match op with
  | OpStoreFile nm c => storeFile p nm c
  | OpStoreError e => storeError p e
  end.

(** The calls run one after the other on the same pointer. *)
Fixpoint run_ops (p : analyzer_ptr) (ops : list store_op) : panicking analyzer_ptr :=
  match ops with
  | [] => Value p
  | op :: rest =>
      match run_op p op with
      | Panic m => Panic m
      | Value a => run_ops (Some a) rest
      end
  end.

(** Results of fallible standard-library calls. *)
Inductive io_result (A : Type) :=
  | Ok (a : A)
  | Err (e : error).
Arguments Ok {A} a.
Arguments Err {A} e.

(** The world a probe observes when it runs:
    - [cmd.CombinedOutput()]: the combined output and the error, if any;
    - [http.Get(url)]: an error, or a response whose body [ioutil.ReadAll]
      reads to bytes or fails on;
    - [ioutil.ReadFile(path)];
    - the frames [errors.Wrap] captures. *)
Record world := mkWorld {
  combined_output : string -> list string -> bytes * option error;
  http_get : string -> io_result (io_result bytes);
  read_file : string -> io_result bytes;
  callers : list string
}.

Definition probe := world -> list store_op.

Definition host : string := "geoip.maxmind.com".
Definition zipFileName : string := "mm-network-analysis.zip".

(** [func (a *analyzer) createStoreCommand(f, command string, args ...string) func()] *)
Definition createStoreCommand (f command : string) (args : list string) : probe :=
  fun w =>
    let '(output, err) := combined_output w command args in
    (match err with
     | Some e => [OpStoreError (Wrap (callers w) e ("error getting data for " ++ f))]
     | None => []
     end) ++ [OpStoreFile f output].

(** [func (a *analyzer) addIP()] *)
Definition addIP : probe :=
  fun w =>
    match http_get w ("http://" ++ host ++ "/app/update_getipaddr") with
    | Err e => [OpStoreError (Wrap (callers w) e "error getting IP address")]
    | Ok body_result =>
        match body_result with
        | Err e => [OpStoreError (Wrap (callers w) e "error reading IP address body")]
        | Ok body => [OpStoreFile "ip-address.txt" body]
        end
    end.

(** [func (a *analyzer) addResolvConf()] *)
Definition addResolvConf : probe :=
  fun w =>
    match read_file w "/etc/resolv.conf" with
    | Err e => [OpStoreError (Wrap (callers w) e "error reading resolv.conf")]
    | Ok c => [OpStoreFile "resolv.conf" c]
    end.

(** ** The error report *)

Definition errors_txt : string := "errors.txt".

(** The block separator of [fmt.Fprintf(buf, "%+v\n\n----------\n\n", storedErr)]. *)
Definition delimiter : string :=
  String "010" (String "010" ("----------" ++ String "010" (String "010" ""))).

(** [fmt.Fprintf] into a [bytes.Buffer]: [Buffer.Write] appends and its
    error result is always nil, so the call never fails. *)
Definition buffer_fprintf (buf : bytes) (s : string) : io_result bytes :=
  Ok (buf ++ bytes_of s).

(** The loop of [addErrors] over [a.errors], with its early return. *)
Fixpoint render_errors (st : list string) (buf : bytes) (es : list error) : io_result bytes :=
  match es with
  | [] => Ok buf
  | storedErr :: rest =>
      match buffer_fprintf buf (format_plus_v storedErr ++ delimiter) with
      | Err err => Err (Wrap st err "error writing errors.txt buffer")
      | Ok buf' => render_errors st buf' rest
      end
  end.

(** [func (a *analyzer) addErrors() error]; [st] are the frames a wrap at
    this call would capture. *)
Definition addErrors (st : list string) (p : analyzer_ptr) : panicking (analyzer * option error) :=
  match deref p with
  | Panic m => Panic m
  | Value a =>
      match errors a with
      | [] => Value (a, None)
      | _ =>
          match render_errors st [] (errors a) with
          | Err e => Value (a, Some e)
          | Ok buf =>
              match storeFile (Some a) errors_txt buf with
              | Panic m => Panic m
              | Value a' => Value (a', None)
              end
          end
      end
  end.

(** ** The zip writer *)

Definition tick (w : zipWriter) : zipWriter :=
  mkZipWriter (zw_entries w) (S (zw_tick w)) (zw_fault w) (zw_closed w).

Definition set_entries (w : zipWriter) (es : list (string * bytes)) : zipWriter :=
  mkZipWriter es (zw_tick w) (zw_fault w) (zw_closed w).

(** Data written goes to the entry created last. *)
Fixpoint append_last (es : list (string * bytes)) (d : bytes) : list (string * bytes) :=
  match es with
  | [] => []
  | [(n, c)] => [(n, c ++ d)]
  | e :: rest => e :: append_last rest d
  end.

(** [zipWriter.Create(name)]: one I/O operation; on success a new entry. *)
Definition zw_create (w : zipWriter) (nm : string) : zipWriter * option error :=
  match zw_fault w (zw_tick w) with
  | Some e => (tick w, Some e)
  | None => (tick (set_entries w (zw_entries w ++ [(nm, [])])), None)
  end.

(** [f.Write(data)] on the entry writer. *)
Definition zw_write (w : zipWriter) (d : bytes) : zipWriter * option error :=
  match zw_fault w (zw_tick w) with
  | Some e => (tick w, Some e)
  | None => (tick (set_entries w (append_last (zw_entries w) d)), None)
  end.

(** [func (a *analyzer) writeFile(zf *zipFile) error] *)
Definition writeFile (st : list string) (w : zipWriter) (zf : zipFile) : zipWriter * option error :=
  match zw_create w (name zf) with
  | (w1, Some err) => (w1, Some (Wrap st err ("error creating " ++ name zf ++ " in zip file")))
  | (w1, None) =>
      match zw_write w1 (contents zf) with
      | (w2, Some err) => (w2, Some (Wrap st err ("error writing " ++ name zf ++ " to zip file")))
      | (w2, None) => (w2, None)
      end
  end.

(** The loop of [writeFiles] over [a.zipFiles], returning at the first error. *)
Fixpoint writeFiles_loop (st : list string) (w : zipWriter) (zfs : list zipFile)
  : zipWriter * option error :=
  match zfs with
  | [] => (w, None)
  | zf :: rest =>
      match writeFile st w zf with
      | (w1, Some err) => (w1, Some err)
      | (w1, None) => writeFiles_loop st w1 rest
      end
  end.

(** [func (a *analyzer) writeFiles() error]; it takes [a.errorsMutex],
    which does not guard [a.zipFiles], but by then no goroutine is left. *)
Definition writeFiles (st : list string) (p : analyzer_ptr) : panicking (analyzer * option error) :=
  match deref p with
  | Panic m => Panic m
  | Value a =>
      let '(w', r) := writeFiles_loop st (zipWriter_ a) (zipFiles a) in
      Value (set_zipWriter a w', r)
  end.

(** [func (a *analyzer) close() error]: [zipWriter.Close()] (one I/O
    operation, finishing the central directory) then [zipFile.Close()],
    which is taken to succeed. *)
Definition close (st : list string) (p : analyzer_ptr) : panicking (analyzer * option error) :=
  match deref p with
  | Panic m => Panic m
  | Value a =>
      let w := zipWriter_ a in
      match zw_fault w (zw_tick w) with
      | Some e => Value (set_zipWriter a (tick w), Some (Wrap st e "error closing zip file writer"))
      | None =>
          let w' := mkZipWriter (zw_entries w) (S (zw_tick w)) (zw_fault w) true in
          let f := zipFile_ a in
          Value (mkAnalyzer w' (mkOsFile (f_data f) (f_off f) true) (errors a) (zipFiles a), None)
      end
  end.

(** ** Opening the archive file

    Linux values of the [os.O_*] flags. *)
Definition O_WRONLY : Z := 1.
Definition O_CREATE : Z := 64.
Definition O_TRUNC : Z := 512.

Definition has_flag (flag f : Z) : bool := negb (Z.land flag f =? 0)%Z.

(** The working directory as the program sees it: the current contents of
    [mm-network-analysis.zip] ([None]: absent) and whether the process may
    write it. *)
Record disk := mkDisk { disk_file : option bytes; disk_writable : bool }.

(** [os.OpenFile(zipFileName, flag, 0600)]. Of the ways it can fail
    (permission, a directory at the path, no space, too many open files)
    the model keeps one; [newAnalyzer] handles every failure alike. *)
Definition OpenFile (d : disk) (flag : Z) : io_result os_file :=
  if negb (disk_writable d) then
    Err (EBase ("open " ++ zipFileName ++ ": permission denied"))
  else
    match disk_file d with
    | Some old =>
        Ok (mkOsFile (if has_flag flag O_TRUNC then [] else old) 0 false)
    | None =>
        if has_flag flag O_CREATE then Ok (mkOsFile [] 0 false)
        else Err (EBase ("open " ++ zipFileName ++ ": no such file or directory"))
    end.

(** [f.Write(data)] at the current offset: the bytes there are replaced and
    the file grows past its end. *)
Definition file_write (f : os_file) (d : bytes) : os_file :=
  mkOsFile (firstn (f_off f) (f_data f) ++ d ++ skipn (f_off f + length d) (f_data f))
           (f_off f + length d) (f_closed f).

(** The bytes the zip writer emits, written one chunk after the other. *)
Definition file_write_all (f : os_file) (chunks : list bytes) : os_file :=
  fold_left file_write chunks f.

(** [zip.NewWriter(f)]: the entry-level writer over the file, with the
    outcome of each of its I/O operations. *)
Definition NewWriter (fault : nat -> option error) : zipWriter :=
  mkZipWriter [] 0 fault false.

(** [func newAnalyzer() ( *analyzer, error)] *)
Definition newAnalyzer (st : list string) (fault : nat -> option error) (d : disk)
  : analyzer_ptr * option error :=
  match OpenFile d (Z.lor O_WRONLY O_CREATE) with
  | Err err => (None, Some (Wrap st err ("error opening " ++ zipFileName)))
  | Ok f => (Some (mkAnalyzer (NewWriter fault) f [] []), None)
  end.

(** ** The tasks of [main]

    [argv0] is [os.Args[0]], passed to curl as the user agent. *)
Definition tasks (argv0 : string) : list probe := [
  createStoreCommand (host ++ "-curl-ipv4.txt") "curl" ["-4"; "--trace-time"; "--trace-ascii"; "-"; "--user-agent"; argv0; host];
  createStoreCommand (host ++ "-curl-ipv6.txt") "curl" ["-6"; "--trace-time"; "--trace-ascii"; "-"; "--user-agent"; argv0; host];
  createStoreCommand (host ++ "-dig.txt") "dig" ["-4"; "+all"; host; "A"; host; "AAAA"];
  createStoreCommand (host ++ "-dig-google.txt") "dig" ["-4"; "+all"; "@8.8.8.8"; host; "A"; host; "AAAA"];
  createStoreCommand (host ++ "-dig-google-trace.txt") "dig" ["-4"; "+all"; "+trace"; "@8.8.8.8"; host; "A"; host; "AAAA"];
  createStoreCommand (host ++ "-dig-cloudflare-josh.txt") "dig" ["-4"; host; "@josh.ns.cloudflare.com"; "+nsid"];
  createStoreCommand (host ++ "-dig-cloudflare-kim.txt") "dig" ["-4"; host; "@kim.ns.cloudflare.com"; "+nsid"];
  createStoreCommand (host ++ "-dig-cloudflare-josh-rfc4892.txt") "dig" ["-4"; "CH"; "TXT"; "id.server"; host; "@josh.ns.cloudflare.com"; "+nsid"];
  createStoreCommand (host ++ "-dig-cloudflare-kim-rfc4892.txt") "dig" ["-4"; "CH"; "TXT"; "id.server"; host; "@kim.ns.cloudflare.com"; "+nsid"];
  createStoreCommand (host ++ "-dig-cloudflare.txt") "dig" ["-4"; "@1.1.1.1"; "CH"; "TXT"; "hostname.cloudflare"; "+short"];
  createStoreCommand "ip-addr.txt" "ip" ["addr"];
  createStoreCommand "ip-route.txt" "ip" ["route"];
  createStoreCommand (host ++ "-mtr-ipv4.json") "mtr" ["-j"; "-4"; host];
  createStoreCommand (host ++ "-mtr-ipv6.json") "mtr" ["-j"; "-6"; host];
  createStoreCommand (host ++ "-ping-ipv4.txt") "ping" ["-4"; "-c"; "30"; host];
  createStoreCommand (host ++ "-ping-ipv6.txt") "ping" ["-6"; "-c"; "30"; host];
  createStoreCommand (host ++ "-tracepath.txt") "tracepath" [host];
  addIP;
  addResolvConf
]%string.

(** ** The fan-out of [main] and its [sync.WaitGroup]

    Each goroutine holds the task passed to it and is about to call it,
    is running the analyzer calls of the task (after the task's I/O), or
    has called [wg.Done()]. *)
Inductive gpc :=
  | GStart
  | GRun (ops : list store_op)
  | GDone.

Record goroutine := mkG { g_task : probe; g_pc : gpc }.

(** The main goroutine: before [wg.Add(1)] of iteration [i], before the
    [go] statement of iteration [i], at [wg.Wait()], past [wg.Wait()]. *)
Inductive mpc :=
  | MAdd (i : nat)
  | MGo (i : nat)
  | MWait
  | MAfter.

(** [s_trace] logs, in order, the goroutine (= loop index) of every task
    call. *)
Record sched := mkSched {
  s_pc : mpc;
  s_gs : list goroutine;
  s_wg : nat;
  s_store : analyzer;
  s_trace : list nat
}.

Section Scheduler.
Variable ts : list probe.
(** The world goroutine [k] observes when it runs its task. *)
Variable worlds : nat -> world.

Inductive step : sched -> sched -> Prop :=
  | st_add i gs wg a tr :
      i < length ts ->
      step (mkSched (MAdd i) gs wg a tr) (mkSched (MGo i) gs (S wg) a tr)
  | st_exit i gs wg a tr :
      length ts <= i ->
      step (mkSched (MAdd i) gs wg a tr) (mkSched MWait gs wg a tr)
  | st_go i t gs wg a tr :
      ts !! i = Some t ->
      step (mkSched (MGo i) gs wg a tr)
           (mkSched (MAdd (S i)) (gs ++ [mkG t GStart]) wg a tr)
  | st_wait gs a tr :
      step (mkSched MWait gs 0 a tr) (mkSched MAfter gs 0 a tr)
  | st_call pc k t gs wg a tr :
      gs !! k = Some (mkG t GStart) ->
      step (mkSched pc gs wg a tr)
           (mkSched pc (<[k := mkG t (GRun (t (worlds k)))]> gs) wg a (tr ++ [k]))
  | st_op pc k t op ops gs wg a a' tr :
      gs !! k = Some (mkG t (GRun (op :: ops))) ->
      run_op (Some a) op = Value a' ->
      step (mkSched pc gs wg a tr)
           (mkSched pc (<[k := mkG t (GRun ops)]> gs) wg a' tr)
  | st_done pc k t gs wg a tr :
      gs !! k = Some (mkG t (GRun [])) ->
      step (mkSched pc gs (S wg) a tr)
           (mkSched pc (<[k := mkG t GDone]> gs) wg a tr).

Inductive reach : sched -> sched -> Prop :=
  | reach_refl s : reach s s
  | reach_step s1 s2 s3 : step s1 s2 -> reach s2 s3 -> reach s1 s3.

Definition sched_init (a : analyzer) : sched := mkSched (MAdd 0) [] 0 a [].
End Scheduler.

(** ** The tail of [main]: [addErrors], [writeFiles], [close], each error
    logged. *)
Definition opt_list {A} (o : option A) : list A :=
  match o with Some x => [x] | None => [] end.

Definition main_tail (st : list string) (p : analyzer_ptr) : panicking (analyzer * list error) :=
  match addErrors st p with
  | Panic m => Panic m
  | Value (a1, e1) =>
      match writeFiles st (Some a1) with
      | Panic m => Panic m
      | Value (a2, e2) =>
          match close st (Some a2) with
          | Panic m => Panic m
          | Value (a3, e3) => Value (a3, opt_list e1 ++ opt_list e2 ++ opt_list e3)
          end
      end
  end.

(** The start of [main]: [newAnalyzer()], its error logged, and the
    pointer it returned kept whatever it is. *)
Definition main_prologue (st : list string) (fault : nat -> option error) (d : disk)
  : analyzer_ptr * list error :=
  let '(p, err) := newAnalyzer st fault d in (p, opt_list err).

(** The text of [errors.txt] for a list of errors. *)
Definition report (es : list error) : string :=
  fold_right (fun e acc => format_plus_v e ++ delimiter ++ acc)%string EmptyString es.

Definition entry_of (zf : zipFile) : string * bytes := (name zf, contents zf).

(** ** Small evaluations *)

Definition w_fail : world :=
  mkWorld (fun _ _ => (bytes_of "partial", Some (EBase "exit status 2")))
          (fun _ => Err (EBase "dial tcp: lookup geoip.maxmind.com: no such host"))
          (fun _ => Ok (bytes_of "nameserver 127.0.0.53"))
          ["main.main"%string].

Definition empty_analyzer : analyzer :=
  mkAnalyzer (NewWriter (fun _ => None)) (mkOsFile [] 0 false) [] [].

Definition ip_url : string := "http://" ++ host ++ "/app/update_getipaddr".

(** An archive left by an earlier run, and the bytes of a new one. *)
Definition old_archive : bytes := bytes_of "PK-OLD-ARCHIVE-TAIL".
Definition new_archive : bytes := bytes_of "PK-NEW".

(** Counters of the scheduler invariant. *)
Definition is_done (g : goroutine) : bool :=
  match g_pc g with GDone => true | _ => false end.

(** 1 once the goroutine has called its task. *)
Definition started (g : goroutine) : nat :=
  match g_pc g with GStart => 0 | _ => 1 end.

(** Goroutines that have not called [wg.Done()]. *)
Fixpoint pending (gs : list goroutine) : nat :=
  match gs with
  | [] => 0
  | g :: rest => (if is_done g then 0 else 1) + pending rest
  end.

Definition calls (tr : list nat) (k : nat) : nat := List.count_occ Nat.eq_dec tr k.

Definition in_go (pc : mpc) : nat := match pc with MGo _ => 1 | _ => 0 end.

Record sched_inv (ts : list probe) (a0 : analyzer) (s : sched) : Prop := {
  inv_tasks : forall k g, s_gs s !! k = Some g -> ts !! k = Some (g_task g);
  inv_len : match s_pc s with
            | MAdd i => length (s_gs s) = i /\ i <= length ts
            | MGo i => length (s_gs s) = i /\ i < length ts
            | _ => length (s_gs s) = length ts
            end;
  inv_wg : s_wg s = pending (s_gs s) + in_go (s_pc s);
  inv_trace : forall k, calls (s_trace s) k =
                        match s_gs s !! k with Some g => started g | None => 0 end;
  inv_after : s_pc s = MAfter -> forall k g, s_gs s !! k = Some g -> g_pc g = GDone;
  inv_writer : zipWriter_ (s_store s) = zipWriter_ a0
}.

(** One fetch probe whose request fails. *)
Definition demo_tasks : list probe := [addIP].
Definition demo_worlds : nat -> world := fun _ => w_fail.

Definition demo_error : error :=
  Wrap ["main.main"%string] (EBase "dial tcp: lookup geoip.maxmind.com: no such host")
       "error getting IP address".

Definition demo_final : sched :=
  mkSched MAfter [mkG addIP GDone] 0 (set_errors empty_analyzer [demo_error]) [0].

(** A host where every command, the HTTP request and the file read
    succeed. *)
Definition w_ok : world :=
  mkWorld (fun _ _ => (bytes_of "ok", None))
          (fun _ => Ok (Ok (bytes_of "203.0.113.7")))
          (fun _ => Ok (bytes_of "nameserver 127.0.0.53"))
          ["main.main"%string].

Definition one_file : zipFile := mkZipFile "ip-addr.txt" (bytes_of "1: lo").

Definition analyzer_with (fault : nat -> option error) : analyzer :=
  mkAnalyzer (NewWriter fault) (mkOsFile [] 0 false) [demo_error] [one_file].

Definition disk_full : error := EBase "write mm-network-analysis.zip: no space left on device".

(** ** What a sequence of analyzer calls stores *)

(** The records a list of calls appends with [storeFile]. *)
Fixpoint files_of (ops : list store_op) : list zipFile :=
  match ops with
  | [] => []
  | OpStoreFile nm c :: rest => mkZipFile nm c :: files_of rest
  | OpStoreError _ :: rest => files_of rest
  end.

(** The errors a list of calls appends with [storeError]. *)
Fixpoint errs_of (ops : list store_op) : list error :=
  match ops with
  | [] => []
  | OpStoreFile _ _ :: rest => errs_of rest
  | OpStoreError e :: rest => e :: errs_of rest
  end.

(** What goroutine [k] has still to store, by a selector of the calls. *)
Definition g_rem {A} (sel : list store_op -> list A) (worlds : nat -> world)
  (k : nat) (g : goroutine) : list A :=
  match g_pc g with
  | GStart => sel (g_task g (worlds k))
  | GRun ops => sel ops
  | GDone => []
  end.

Fixpoint rem_from {A} (sel : list store_op -> list A) (worlds : nat -> world)
  (k : nat) (gs : list goroutine) : list A :=
  match gs with
  | [] => []
  | g :: rest => g_rem sel worlds k g ++ rem_from sel worlds (S k) rest
  end.

(** What the tasks store, task [k] running in world [worlds k]. *)
Fixpoint task_outputs {A} (sel : list store_op -> list A) (worlds : nat -> world)
  (k : nat) (ts : list probe) : list A :=
  match ts with
  | [] => []
  | t :: rest => sel (t (worlds k)) ++ task_outputs sel worlds (S k) rest
  end.

(** The output names of the command probes of [main], in task order. *)
Definition command_names : list string := [
  host ++ "-curl-ipv4.txt"; host ++ "-curl-ipv6.txt";
  host ++ "-dig.txt"; host ++ "-dig-google.txt"; host ++ "-dig-google-trace.txt";
  host ++ "-dig-cloudflare-josh.txt"; host ++ "-dig-cloudflare-kim.txt";
  host ++ "-dig-cloudflare-josh-rfc4892.txt"; host ++ "-dig-cloudflare-kim-rfc4892.txt";
  host ++ "-dig-cloudflare.txt"; "ip-addr.txt"; "ip-route.txt";
  host ++ "-mtr-ipv4.json"; host ++ "-mtr-ipv6.json";
  host ++ "-ping-ipv4.txt"; host ++ "-ping-ipv6.txt"; host ++ "-tracepath.txt"]%string.

Example createStoreCommand_fail_eval :
  createStoreCommand "ip-addr.txt" "ip" ["addr"%string] w_fail =
  [OpStoreError (Wrap ["main.main"%string] (EBase "exit status 2") "error getting data for ip-addr.txt");
   OpStoreFile "ip-addr.txt" (bytes_of "partial")].
Proof. reflexivity. Qed.

Example addErrors_eval :
  match addErrors [] (Some (set_errors empty_analyzer [EBase "x"])) with
  | Value (a, None) => zipFiles a = [mkZipFile errors_txt (bytes_of ("x" ++ delimiter))]
  | _ => False
  end.
Proof. vm_compute. reflexivity. Qed.

(** ** Lemmas on bytes and strings *)

Lemma bytes_of_app (s1 s2 : string) : bytes_of (s1 ++ s2) = bytes_of s1 ++ bytes_of s2.
Proof.
  unfold bytes_of, list_byte_of_string.
  induction s1 as [|c s1 IH]; simpl; [reflexivity|].
  f_equal. exact IH.
Qed.

Lemma render_errors_ok st buf es :
  render_errors st buf es = Ok (buf ++ bytes_of (report es)).
Proof.
  revert buf. induction es as [|e es IH]; intros buf; simpl.
  - unfold bytes_of, list_byte_of_string. simpl. rewrite app_nil_r. reflexivity.
  - unfold buffer_fprintf. rewrite IH. f_equal.
    rewrite !bytes_of_app. rewrite <- !app_assoc. reflexivity.
Qed.

Lemma run_op_some a op : exists a', run_op (Some a) op = Value a'.
Proof. destruct op; simpl; eexists; reflexivity. Qed.

Lemma addErrors_spec st a :
  addErrors st (Some a) =
  Value (match errors a with
         | [] => (a, None)
         | _ => (set_zipFiles a (zipFiles a ++ [mkZipFile errors_txt (bytes_of (report (errors a)))]), None)
         end).
Proof.
  unfold addErrors, deref. destruct (errors a) as [|e es] eqn:E; [reflexivity|].
  rewrite render_errors_ok. reflexivity.
Qed.

(** ** Probes *)

(** C3: a command probe always stores exactly one output record holding
    the combined output under its name, failure or not, and stores one
    error record wrapping the execution error exactly when the command
    fails. *)
Theorem createStoreCommand_stores_output f command args w a :
  let '(output, err) := combined_output w command args in
  run_ops (Some a) (createStoreCommand f command args w) =
  Value (Some (mkAnalyzer (zipWriter_ a) (zipFile_ a)
                 (errors a ++ match err with
                              | Some e => [Wrap (callers w) e ("error getting data for " ++ f)]
                              | None => []
                              end)
                 (zipFiles a ++ [mkZipFile f output]))).
Proof.
  unfold createStoreCommand.
  destruct (combined_output w command args) as [output [e|]]; simpl.
  - reflexivity.
  - rewrite app_nil_r. reflexivity.
Qed.

(** C4: the fetch probe [addIP] and the read probe [addResolvConf] store
    exactly one output record (the body, the file contents) and no error on
    success, and exactly one error record and no output record on each
    failure (request error, body read error, file read error). *)
Theorem addIP_addResolvConf_store_one w a :
  run_ops (Some a) (addIP w) =
    Value (Some (match http_get w ip_url with
                 | Ok (Ok body) => set_zipFiles a (zipFiles a ++ [mkZipFile "ip-address.txt" body])
                 | Ok (Err e) => set_errors a (errors a ++ [Wrap (callers w) e "error reading IP address body"])
                 | Err e => set_errors a (errors a ++ [Wrap (callers w) e "error getting IP address"])
                 end)) /\
  run_ops (Some a) (addResolvConf w) =
    Value (Some (match read_file w "/etc/resolv.conf" with
                 | Ok c => set_zipFiles a (zipFiles a ++ [mkZipFile "resolv.conf" c])
                 | Err e => set_errors a (errors a ++ [Wrap (callers w) e "error reading resolv.conf"])
                 end)).
Proof.
  split.
  - unfold addIP, ip_url. destruct (http_get w _) as [[body|e]|e]; reflexivity.
  - unfold addResolvConf. destruct (read_file w _) as [c|e]; reflexivity.
Qed.

(** ** The error report *)

(** C5: [addErrors] appends nothing when there is no error; otherwise it
    appends exactly one record, [errors.txt], whose content is every
    error's [%+v] rendering (its message with the wrapped causes and
    frames), in accumulation order, each followed by the
    [----------] delimiter. *)
Theorem addErrors_report st a :
  (errors a = [] -> addErrors st (Some a) = Value (a, None)) /\
  (errors a <> [] ->
   addErrors st (Some a) =
   Value (set_zipFiles a (zipFiles a ++ [mkZipFile errors_txt
            (bytes_of (fold_right (fun e acc => format_plus_v e ++ delimiter ++ acc)%string
                                  EmptyString (errors a)))]), None)).
Proof.
  rewrite addErrors_spec. split; intros H.
  - rewrite H. reflexivity.
  - destruct (errors a) eqn:E; [congruence|]. reflexivity.
Qed.

(** C8: [addErrors] leaves the error list as it was. *)
Theorem addErrors_keeps_errors st a :
  exists a' r, addErrors st (Some a) = Value (a', r) /\ errors a' = errors a.
Proof.
  rewrite addErrors_spec. destruct (errors a) eqn:E.
  - exists a, None. rewrite E. split; reflexivity.
  - eexists _, None. split; [reflexivity|]. simpl. exact E.
Qed.

(** ** Writing the archive *)

Lemma append_last_cons2 x z r d :
  append_last (x :: z :: r) d = x :: append_last (z :: r) d.
Proof. destruct x. reflexivity. Qed.

Lemma append_last_snoc l n c d :
  append_last (l ++ [(n, c)]) d = l ++ [(n, c ++ d)].
Proof.
  induction l as [|x l IH]; [reflexivity|].
  destruct l as [|y l].
  - destruct x; reflexivity.
  - change ((x :: y :: l) ++ [(n, c)]) with (x :: y :: (l ++ [(n, c)])).
    rewrite append_last_cons2. exact (f_equal (cons x) IH).
Qed.

Lemma writeFile_nofault st w zf :
  zw_fault w (zw_tick w) = None ->
  zw_fault w (S (zw_tick w)) = None ->
  exists w', writeFile st w zf = (w', None) /\
             zw_entries w' = zw_entries w ++ [entry_of zf] /\
             zw_fault w' = zw_fault w /\ zw_tick w' = S (S (zw_tick w)).
Proof.
  intros F1 F2. unfold writeFile, zw_create. rewrite F1.
  unfold zw_write. simpl. rewrite F2.
  eexists. split; [reflexivity|]. simpl.
  rewrite append_last_snoc. split; [reflexivity|]. split; reflexivity.
Qed.

Lemma writeFiles_loop_nofault st zfs : forall w,
  (forall n, zw_fault w n = None) ->
  exists w', writeFiles_loop st w zfs = (w', None) /\
             zw_entries w' = zw_entries w ++ map entry_of zfs /\
             zw_fault w' = zw_fault w.
Proof.
  induction zfs as [|zf zfs IH]; intros w F; simpl.
  - exists w. rewrite app_nil_r. repeat split.
  - destruct (writeFile_nofault st w zf (F _) (F _)) as (w1 & E1 & En1 & Ef1 & _).
    rewrite E1.
    destruct (IH w1) as (w2 & E2 & En2 & Ef2).
    { intros n. rewrite Ef1. apply F. }
    exists w2. rewrite E2, En2, En1, Ef2, Ef1, <- app_assoc. repeat split.
Qed.

(** C6: when the writer's I/O succeeds, [writeFiles] adds one archive
    entry per record of the store, in the store's order, with the record's
    name and its exact bytes (duplicates kept), and changes no record. *)
Theorem writeFiles_roundtrip st a :
  (forall n, zw_fault (zipWriter_ a) n = None) ->
  exists a', writeFiles st (Some a) = Value (a', None) /\
             zw_entries (zipWriter_ a') = zw_entries (zipWriter_ a) ++ map entry_of (zipFiles a) /\
             zipFiles a' = zipFiles a /\ errors a' = errors a.
Proof.
  intros F. unfold writeFiles, deref.
  destruct (writeFiles_loop_nofault st (zipFiles a) (zipWriter_ a) F) as (w' & E & En & _).
  rewrite E. eexists. split; [reflexivity|]. simpl. auto.
Qed.

Lemma writeFile_ok st w zf :
  zw_fault w (zw_tick w) = None ->
  zw_fault w (S (zw_tick w)) = None ->
  writeFile st w zf =
  (mkZipWriter (zw_entries w ++ [entry_of zf]) (S (S (zw_tick w))) (zw_fault w) (zw_closed w), None).
Proof.
  intros F1 F2. unfold writeFile, zw_create. rewrite F1.
  unfold zw_write. simpl. rewrite F2. simpl.
  rewrite append_last_snoc. reflexivity.
Qed.

(** The records before the first failing call are written one after the
    other, two calls each. *)
Lemma writeFiles_loop_prefix st zfs1 : forall w rest,
  (forall n, n < 2 * length zfs1 -> zw_fault w (zw_tick w + n) = None) ->
  writeFiles_loop st w (zfs1 ++ rest) =
  writeFiles_loop st
    (mkZipWriter (zw_entries w ++ map entry_of zfs1) (zw_tick w + 2 * length zfs1)
                 (zw_fault w) (zw_closed w)) rest.
Proof.
  induction zfs1 as [|zf zfs1 IH]; intros w rest F.
  - destruct w. simpl. rewrite app_nil_r, Nat.add_0_r. reflexivity.
  - simpl app. simpl writeFiles_loop.
    rewrite writeFile_ok.
    2: { rewrite <- (Nat.add_0_r (zw_tick w)). apply F. simpl. lia. }
    2: { rewrite <- Nat.add_1_r. apply F. simpl. lia. }
    rewrite IH.
    + simpl. rewrite <- app_assoc. do 2 f_equal. simpl. lia.
    + intros n Hn. simpl. replace (S (S (zw_tick w + n))) with (zw_tick w + (2 + n)) by lia.
      apply F. simpl. lia.
Qed.

(** C7: when the [Create] or the [Write] of a record fails, and the calls
    for the records before it succeeded, [writeFiles] returns at once the
    error of that very call, wrapped with the record's name: the records
    before it have their entries, the failing one at most its created empty
    entry, no later record is touched, and the store (records and errors)
    is left as it was. *)
Theorem writeFiles_fail_fast st a zfs1 zf zfs2 e0 :
  zipFiles a = zfs1 ++ zf :: zfs2 ->
  (forall n, n < 2 * length zfs1 -> zw_fault (zipWriter_ a) (zw_tick (zipWriter_ a) + n) = None) ->
  (zw_fault (zipWriter_ a) (zw_tick (zipWriter_ a) + 2 * length zfs1) = Some e0 ->
   writeFiles st (Some a) =
   Value (set_zipWriter a
            (mkZipWriter (zw_entries (zipWriter_ a) ++ map entry_of zfs1)
                         (S (zw_tick (zipWriter_ a) + 2 * length zfs1))
                         (zw_fault (zipWriter_ a)) (zw_closed (zipWriter_ a))),
          Some (Wrap st e0 ("error creating " ++ name zf ++ " in zip file")))) /\
  (zw_fault (zipWriter_ a) (zw_tick (zipWriter_ a) + 2 * length zfs1) = None ->
   zw_fault (zipWriter_ a) (S (zw_tick (zipWriter_ a) + 2 * length zfs1)) = Some e0 ->
   writeFiles st (Some a) =
   Value (set_zipWriter a
            (mkZipWriter (zw_entries (zipWriter_ a) ++ map entry_of zfs1 ++ [(name zf, [])])
                         (S (S (zw_tick (zipWriter_ a) + 2 * length zfs1)))
                         (zw_fault (zipWriter_ a)) (zw_closed (zipWriter_ a))),
          Some (Wrap st e0 ("error writing " ++ name zf ++ " to zip file")))).
Proof.
  intros Hz F. unfold writeFiles, deref. rewrite Hz, (writeFiles_loop_prefix st zfs1 _ _ F).
  simpl writeFiles_loop. unfold writeFile, zw_create. simpl zw_fault. simpl zw_tick.
  split.
  - intros F1. rewrite F1. reflexivity.
  - intros F1 F2. rewrite F1. unfold zw_write. simpl. rewrite F2. simpl.
    rewrite <- app_assoc. reflexivity.
Qed.

(** ** Opening the archive *)

(** C2: [newAnalyzer] opens with [O_WRONLY|O_CREATE] and no [O_TRUNC]: an
    archive left by an earlier run keeps its bytes past the end of the new
    archive. *)
Theorem newAnalyzer_keeps_old_bytes :
  has_flag (Z.lor O_WRONLY O_CREATE) O_TRUNC = false /\
  match newAnalyzer [] (fun _ => None) (mkDisk (Some old_archive) true) with
  | (Some a, None) =>
      f_data (file_write_all (zipFile_ a) [new_archive]) = bytes_of "PK-NEW-ARCHIVE-TAIL" /\
      f_data (file_write_all (zipFile_ a) [new_archive]) <> new_archive
  | _ => False
  end.
Proof. vm_compute. split; [reflexivity|]. split; [reflexivity|discriminate]. Qed.

(** ** A nil analyzer *)

Lemma run_ops_nil ops : ops <> [] -> run_ops None ops = Panic nil_deref.
Proof. destruct ops as [|op ops]; [congruence|]. intros _. destruct op; reflexivity. Qed.

Lemma run_ops_some ops : forall a, exists p, run_ops (Some a) ops = Value (Some p).
Proof.
  induction ops as [|op ops IH]; intros a; simpl.
  - exists a. reflexivity.
  - destruct (run_op_some a op) as [a' ->]. apply IH.
Qed.

Lemma createStoreCommand_nonempty f command args w : createStoreCommand f command args w <> [].
Proof.
  unfold createStoreCommand. destruct (combined_output w command args) as [o e].
  intros H. apply app_nil in H. destruct H as [_ H]. discriminate.
Qed.

Lemma tasks_nonempty argv0 t w : In t (tasks argv0) -> t w <> [].
Proof.
  intros H. unfold tasks in H.
  repeat (destruct H as [<-|H]; [apply createStoreCommand_nonempty|]).
  destruct H as [<-|H].
  - unfold addIP. destruct (http_get w _) as [[b|e]|e]; discriminate.
  - destruct H as [<-|[]]. unfold addResolvConf. destruct (read_file w _); discriminate.
Qed.

Lemma main_tail_some st a : exists r, main_tail st (Some a) = Value r.
Proof.
  unfold main_tail. rewrite addErrors_spec.
  destruct (errors a) as [|e es];
    unfold writeFiles, close, deref;
    match goal with |- context [writeFiles_loop ?s ?w ?z] => destruct (writeFiles_loop s w z) end;
    match goal with |- context [zw_fault ?w ?n] => destruct (zw_fault w n) end;
    eexists; reflexivity.
Qed.

(** C9: when opening the archive fails, [main] logs the error and goes on
    with a nil analyzer; every task then panics at its first [storeFile] or
    [storeError], and so would [addErrors], [writeFiles] and [close]; with
    a non-nil analyzer none of these panics. *)
Theorem nil_analyzer_panics st fault d argv0 w :
  snd (newAnalyzer st fault d) <> None ->
  fst (main_prologue st fault d) = None /\
  snd (main_prologue st fault d) <> [] /\
  (forall t, In t (tasks argv0) -> run_ops (fst (main_prologue st fault d)) (t w) = Panic nil_deref) /\
  main_tail st None = Panic nil_deref /\
  (forall a t, In t (tasks argv0) -> exists p, run_ops (Some a) (t w) = Value (Some p)) /\
  (forall a, exists r, main_tail st (Some a) = Value r).
Proof.
  unfold main_prologue, newAnalyzer.
  destruct (OpenFile d (Z.lor O_WRONLY O_CREATE)) as [f|err]; simpl; [congruence|].
  intros _. split; [reflexivity|]. split; [discriminate|]. split.
  { intros t Ht. apply run_ops_nil. apply (tasks_nonempty argv0). exact Ht. }
  split; [reflexivity|]. split.
  - intros a t _. apply run_ops_some.
  - apply main_tail_some.
Qed.

Lemma pending_insert gs : forall k g g',
  gs !! k = Some g ->
  pending (<[k := g']> gs) + (if is_done g then 0 else 1) =
  pending gs + (if is_done g' then 0 else 1).
Proof.
  induction gs as [|x gs IH]; intros k g g' H; [discriminate|].
  destruct k as [|k]; simpl in *.
  - injection H as ->. lia.
  - specialize (IH k g g' H). lia.
Qed.

Lemma pending_snoc gs g : pending (gs ++ [g]) = pending gs + (if is_done g then 0 else 1).
Proof. induction gs as [|x gs IH]; simpl; [lia|]. rewrite IH. lia. Qed.

Lemma pending_zero gs : pending gs = 0 -> forall k g, gs !! k = Some g -> g_pc g = GDone.
Proof.
  induction gs as [|x gs IH]; intros H k g Hk; [discriminate|].
  simpl in H. destruct k as [|k]; simpl in Hk.
  - injection Hk as ->. unfold is_done in H. destruct (g_pc g); simpl in H; congruence.
  - destruct (is_done x); simpl in H; [|lia]. exact (IH H k g Hk).
Qed.

Lemma pending_pos gs : 0 < pending gs -> exists k g, gs !! k = Some g /\ is_done g = false.
Proof.
  induction gs as [|x gs IH]; simpl; intros H; [lia|].
  destruct (is_done x) eqn:D.
  - destruct (IH ltac:(lia)) as (k & g & Hk & Hd). exists (S k), g. auto.
  - exists 0, x. auto.
Qed.

Lemma lookup_snoc_split (gs : list goroutine) g j :
  (gs ++ [g]) !! j =
  match gs !! j with
  | Some x => Some x
  | None => if decide (j = length gs) then Some g else None
  end.
Proof.
  rewrite lookup_app. destruct (gs !! j) eqn:E; [reflexivity|].
  apply lookup_ge_None_1 in E.
  destruct (decide (j = length gs)) as [->|Hne].
  - rewrite Nat.sub_diag. reflexivity.
  - apply lookup_ge_None_2. simpl. lia.
Qed.

Lemma calls_snoc tr k j : calls (tr ++ [k]) j = calls tr j + (if decide (k = j) then 1 else 0).
Proof.
  unfold calls. rewrite count_occ_app. simpl.
  destruct (Nat.eq_dec k j), (decide (k = j)); try congruence; lia.
Qed.

Lemma run_op_frame a op a' :
  run_op (Some a) op = Value a' ->
  zipWriter_ a' = zipWriter_ a /\ zipFile_ a' = zipFile_ a.
Proof. destruct op; simpl; intros H; injection H as <-; auto. Qed.

Lemma lookup_insert_split (gs : list goroutine) k g g' j :
  gs !! k = Some g ->
  (<[k := g']> gs) !! j = if decide (j = k) then Some g' else gs !! j.
Proof.
  intros H. destruct (decide (j = k)) as [->|Hne].
  - apply list_lookup_insert_eq. eapply lookup_lt_Some. exact H.
  - apply list_lookup_insert_ne. congruence.
Qed.

(** Updating goroutine [k] in place keeps its task and the invariant
    parts that only look at the task. *)
Lemma update_tasks (ts : list probe) (gs : list goroutine) (k : nat) t p p' :
  gs !! k = Some (mkG t p) ->
  (forall j g, gs !! j = Some g -> ts !! j = Some (g_task g)) ->
  forall j g, (<[k := mkG t p']> gs) !! j = Some g -> ts !! j = Some (g_task g).
Proof.
  intros Hk Ht j g Hj. rewrite (lookup_insert_split _ _ _ _ _ Hk) in Hj.
  destruct (decide (j = k)) as [->|Hne].
  - injection Hj as <-. exact (Ht k _ Hk).
  - exact (Ht j g Hj).
Qed.

Lemma sched_inv_init ts a0 : sched_inv ts a0 (sched_init a0).
Proof.
  constructor; simpl.
  - intros k g H. discriminate.
  - lia.
  - reflexivity.
  - intros k. reflexivity.
  - discriminate.
  - reflexivity.
Qed.

Lemma sched_inv_step ts worlds a0 s s' :
  step ts worlds s s' -> sched_inv ts a0 s -> sched_inv ts a0 s'.
Proof.
  intros Hs [Ht Hl Hw Htr Ha Hwr].
  destruct Hs as [i gs wg a tr Hi | i gs wg a tr Hi | i t gs wg a tr Hti | gs a tr
                 | pc k t gs wg a tr Hk | pc k t op ops gs wg a a' tr Hk Hop
                 | pc k t gs wg a tr Hk]; simpl in *.
  - (* wg.Add(1) *)
    constructor; simpl; auto; [destruct Hl; split; lia | lia | discriminate].
  - (* loop exit *)
    constructor; simpl; auto; [lia | discriminate].
  - (* go statement *)
    destruct Hl as [Hl1 Hl2]. constructor; simpl.
    + intros j g Hj. rewrite lookup_snoc_split in Hj.
      destruct (gs !! j) as [x|] eqn:E; [injection Hj as <-; exact (Ht j x E)|].
      destruct (decide (j = length gs)) as [->|]; [|discriminate].
      injection Hj as <-. rewrite Hl1. exact Hti.
    + rewrite length_app, Hl1. simpl. lia.
    + rewrite pending_snoc. simpl. lia.
    + intros j. rewrite Htr, lookup_snoc_split.
      destruct (gs !! j); [reflexivity|].
      destruct (decide (j = length gs)); reflexivity.
    + discriminate.
    + exact Hwr.
  - (* wg.Wait() returns *)
    constructor; simpl; auto.
    intros _. apply pending_zero. lia.
  - (* the goroutine calls its task *)
    constructor; simpl.
    + exact (update_tasks _ _ _ _ _ _ Hk Ht).
    + rewrite length_insert. exact Hl.
    + pose proof (pending_insert gs k _ (mkG t (GRun (t (worlds k)))) Hk). simpl in H. lia.
    + intros j. rewrite calls_snoc, Htr, (lookup_insert_split _ _ _ _ _ Hk).
      destruct (decide (j = k)) as [->|Hne].
      * rewrite Hk. destruct (decide (k = k)); [reflexivity|congruence].
      * destruct (decide (k = j)); [congruence|]. lia.
    + intros Hpc. exfalso. specialize (Ha Hpc k _ Hk). discriminate.
    + exact Hwr.
  - (* one analyzer call *)
    destruct (run_op_frame _ _ _ Hop) as [Hop1 _].
    constructor; simpl.
    + exact (update_tasks _ _ _ _ _ _ Hk Ht).
    + rewrite length_insert. exact Hl.
    + pose proof (pending_insert gs k _ (mkG t (GRun ops)) Hk). simpl in H. lia.
    + intros j. rewrite Htr, (lookup_insert_split _ _ _ _ _ Hk).
      destruct (decide (j = k)) as [->|]; [rewrite Hk|]; reflexivity.
    + intros Hpc. exfalso. specialize (Ha Hpc k _ Hk). discriminate.
    + rewrite Hop1. exact Hwr.
  - (* wg.Done() *)
    constructor; simpl.
    + exact (update_tasks _ _ _ _ _ _ Hk Ht).
    + rewrite length_insert. exact Hl.
    + pose proof (pending_insert gs k _ (mkG t GDone) Hk). simpl in H. lia.
    + intros j. rewrite Htr, (lookup_insert_split _ _ _ _ _ Hk).
      destruct (decide (j = k)) as [->|]; [rewrite Hk|]; reflexivity.
    + intros Hpc. exfalso. specialize (Ha Hpc k _ Hk). discriminate.
    + exact Hwr.
Qed.

Lemma sched_inv_reach ts worlds a0 s s' :
  reach ts worlds s s' -> sched_inv ts a0 s -> sched_inv ts a0 s'.
Proof.
  induction 1 as [s|s1 s2 s3 Hs _ IH]; [auto|].
  intros H. apply IH. exact (sched_inv_step _ _ _ _ _ Hs H).
Qed.

(** ** The fan-out and the barrier *)

(** C1: in every run of [main]'s loop and goroutines, once [wg.Wait()] has
    returned, one goroutine was started per task, with that task, each task
    was called exactly once (and no other call was made), and every
    goroutine has finished its task and called [wg.Done()], whatever the
    outcomes of the probes; before that point some step can always be
    taken, so a failing probe blocks or cancels nothing. *)
Theorem scheduler_runs_each_task_once ts worlds a0 s :
  reach ts worlds (sched_init a0) s ->
  (s_pc s = MAfter ->
     length (s_gs s) = length ts /\
     (forall k, k < length ts ->
        calls (s_trace s) k = 1 /\
        exists g, s_gs s !! k = Some g /\ ts !! k = Some (g_task g) /\ g_pc g = GDone) /\
     (forall k, length ts <= k -> calls (s_trace s) k = 0)) /\
  (s_pc s <> MAfter -> exists s', step ts worlds s s').
Proof.
  intros Hr.
  destruct (sched_inv_reach _ _ a0 _ _ Hr (sched_inv_init ts a0)) as [Ht Hl Hw Htr Ha _].
  split.
  - intros Hpc. rewrite Hpc in Hl. split; [exact Hl|]. split.
    + intros k Hk. rewrite <- Hl in Hk.
      destruct (lookup_lt_is_Some_2 _ _ Hk) as [g Hg].
      pose proof (Ha Hpc k g Hg) as Hd.
      split.
      * rewrite Htr, Hg. unfold started. rewrite Hd. reflexivity.
      * exists g. auto.
    + intros k Hk. rewrite Htr, lookup_ge_None_2; [reflexivity|lia].
  - destruct s as [pc gs wg a tr]; simpl in *. intros Hpc.
    destruct pc as [i|i| |]; simpl in *.
    + destruct (lt_dec i (length ts)).
      * eexists. apply st_add. exact l.
      * eexists. apply st_exit. lia.
    + destruct (lookup_lt_is_Some_2 ts i ltac:(lia)) as [t Hti].
      eexists. apply st_go. exact Hti.
    + destruct wg as [|wg].
      * eexists. apply st_wait.
      * destruct (pending_pos gs ltac:(lia)) as (k & [t p] & Hk & Hd).
        destruct p as [|[|op ops]|]; simpl in Hd.
        -- eexists. eapply st_call. exact Hk.
        -- eexists. eapply st_done. exact Hk.
        -- destruct (run_op_some a op) as [a' Ha'].
           eexists. eapply st_op; [exact Hk | exact Ha'].
        -- discriminate.
    + congruence.
Qed.

(** C10: after the barrier, when some error was collected and the
    archive's I/O succeeds, [main]'s tail writes the collected records in
    order and then [errors.txt] as the last entry, and logs nothing. *)
Theorem errors_txt_written_last ts worlds a0 st s :
  reach ts worlds (sched_init a0) s ->
  s_pc s = MAfter ->
  errors (s_store s) <> [] ->
  (forall n, zw_fault (zipWriter_ a0) n = None) ->
  exists a3, main_tail st (Some (s_store s)) = Value (a3, []) /\
    zw_entries (zipWriter_ a3) =
      zw_entries (zipWriter_ a0) ++ map entry_of (zipFiles (s_store s)) ++
      [(errors_txt, bytes_of (report (errors (s_store s))))].
Proof.
  intros Hr _ He F.
  destruct (sched_inv_reach _ _ a0 _ _ Hr (sched_inv_init ts a0)) as [_ _ _ _ _ Hwr].
  set (a := s_store s) in *.
  unfold main_tail. rewrite addErrors_spec.
  destruct (errors a) as [|e es] eqn:E; [congruence|].
  set (a1 := set_zipFiles a (zipFiles a ++ [mkZipFile errors_txt (bytes_of (report (e :: es)))])).
  assert (F1 : forall n, zw_fault (zipWriter_ a1) n = None).
  { intros n. simpl. rewrite Hwr. apply F. }
  destruct (writeFiles_loop_nofault st (zipFiles a1) (zipWriter_ a1) F1) as (w' & Ew & En & Ef).
  unfold writeFiles, deref. rewrite Ew.
  unfold close, deref. simpl. rewrite Ef, F1.
  eexists. split; [reflexivity|]. simpl.
  rewrite En. simpl. rewrite Hwr, map_app. rewrite <- ?app_assoc. reflexivity.
Qed.

(** ** Concrete runs *)

(** ** A complete run of [main]'s goroutines, one after the other *)

(** Launch goroutine [i] and run it to completion before the next one. *)
Ltac run_goroutine i :=
  eapply reach_step; [apply st_add; simpl; lia|];
  eapply reach_step; [apply st_go; reflexivity|];
  eapply reach_step; [eapply (st_call _ _ _ i); reflexivity|];
  cbn;
  repeat (eapply reach_step; [eapply (st_op _ _ _ i); reflexivity|]; cbn);
  eapply reach_step; [eapply (st_done _ _ _ i); reflexivity|];
  cbn.

Lemma main_run_ok :
  { s | reach (tasks "mm-network-analyzer") (fun _ => w_ok) (sched_init empty_analyzer) s }.
Proof.
  eexists.
  run_goroutine 0. run_goroutine 1. run_goroutine 2. run_goroutine 3.
  run_goroutine 4. run_goroutine 5. run_goroutine 6. run_goroutine 7.
  run_goroutine 8. run_goroutine 9. run_goroutine 10. run_goroutine 11.
  run_goroutine 12. run_goroutine 13. run_goroutine 14. run_goroutine 15.
  run_goroutine 16. run_goroutine 17. run_goroutine 18.
  eapply reach_step; [apply st_exit; simpl; lia|].
  eapply reach_step; [apply st_wait|].
  apply reach_refl.
Defined.

Lemma main_run_fail :
  { s | reach (tasks "mm-network-analyzer") (fun _ => w_fail) (sched_init empty_analyzer) s }.
Proof.
  eexists.
  run_goroutine 0. run_goroutine 1. run_goroutine 2. run_goroutine 3.
  run_goroutine 4. run_goroutine 5. run_goroutine 6. run_goroutine 7.
  run_goroutine 8. run_goroutine 9. run_goroutine 10. run_goroutine 11.
  run_goroutine 12. run_goroutine 13. run_goroutine 14. run_goroutine 15.
  run_goroutine 16. run_goroutine 17. run_goroutine 18.
  eapply reach_step; [apply st_exit; simpl; lia|].
  eapply reach_step; [apply st_wait|].
  apply reach_refl.
Defined.

Lemma demo_reach : reach demo_tasks demo_worlds (sched_init empty_analyzer) demo_final.
Proof.
  eapply reach_step; [apply st_add; simpl; lia|].
  eapply reach_step; [apply st_go; reflexivity|].
  eapply reach_step; [apply (st_call _ _ _ 0 addIP); reflexivity|].
  cbn.
  eapply reach_step; [eapply (st_op _ _ _ 0 addIP); reflexivity|].
  cbn.
  eapply reach_step; [eapply (st_done _ _ _ 0 addIP); reflexivity|].
  cbn.
  eapply reach_step; [apply st_exit; simpl; lia|].
  eapply reach_step; [apply st_wait|].
  apply reach_refl.
Qed.

Lemma scheduler_runs_each_task_once_witness :
  reach demo_tasks demo_worlds (sched_init empty_analyzer) demo_final /\
  calls (s_trace demo_final) 0 = 1.
Proof.
  split; [exact demo_reach|].
  destruct (proj1 (scheduler_runs_each_task_once demo_tasks demo_worlds empty_analyzer
                     demo_final demo_reach) eq_refl) as (_ & H & _).
  exact (proj1 (H 0 ltac:(simpl; lia))).
Defined.

(** The whole of [main] on a host where every command exits with an error
    after partial output and the IP request fails: 18 probe records and 18
    errors, then [errors.txt] last. *)
Lemma errors_txt_written_last_witness :
  reach (tasks "mm-network-analyzer") (fun _ => w_fail) (sched_init empty_analyzer)
        (proj1_sig main_run_fail) /\
  s_pc (proj1_sig main_run_fail) = MAfter /\
  length (zipFiles (s_store (proj1_sig main_run_fail))) = 18 /\
  errors (s_store (proj1_sig main_run_fail)) <> [] /\
  exists a3, main_tail [] (Some (s_store (proj1_sig main_run_fail))) = Value (a3, []) /\
    zw_entries (zipWriter_ a3) =
      zw_entries (zipWriter_ empty_analyzer) ++
      map entry_of (zipFiles (s_store (proj1_sig main_run_fail))) ++
      [(errors_txt, bytes_of (report (errors (s_store (proj1_sig main_run_fail)))))].
Proof.
  split; [exact (proj2_sig main_run_fail)|].
  split; [vm_compute; reflexivity|].
  split; [vm_compute; reflexivity|].
  split; [vm_compute; discriminate|].
  exact (errors_txt_written_last _ _ empty_analyzer [] _ (proj2_sig main_run_fail)
           ltac:(vm_compute; reflexivity) ltac:(vm_compute; discriminate) (fun _ => eq_refl)).
Defined.

Lemma addErrors_report_witness :
  errors (analyzer_with (fun _ => None)) <> [] /\
  addErrors [] (Some (analyzer_with (fun _ => None))) =
  Value (set_zipFiles (analyzer_with (fun _ => None))
           [one_file; mkZipFile errors_txt (bytes_of (format_plus_v demo_error ++ delimiter))], None).
Proof.
  split; [discriminate|].
  rewrite (proj2 (addErrors_report [] (analyzer_with (fun _ => None))) ltac:(discriminate)).
  reflexivity.
Defined.

Lemma writeFiles_roundtrip_witness :
  exists a', writeFiles [] (Some (analyzer_with (fun _ => None))) = Value (a', None) /\
             zw_entries (zipWriter_ a') = [entry_of one_file].
Proof.
  destruct (writeFiles_roundtrip [] (analyzer_with (fun _ => None)) (fun _ => eq_refl))
    as (a' & H1 & H2 & _).
  exists a'. split; [exact H1|]. rewrite H2. reflexivity.
Defined.

(** Three records; the [Create] of the second fails. That call closes the
    first entry and pushes its compressed data through the buffer to the
    file: the first call at which a full disk shows once that data exceeds
    the 4096-byte buffer. The third record is never written. *)
Lemma writeFiles_fail_fast_witness :
  zipFiles (set_zipFiles (analyzer_with (fun n => if Nat.eqb n 2 then Some disk_full else None))
              [one_file; mkZipFile "ip-route.txt" (bytes_of "default via 10.0.0.1");
               mkZipFile "resolv.conf" (bytes_of "nameserver 127.0.0.53")]) =
    [one_file] ++ mkZipFile "ip-route.txt" (bytes_of "default via 10.0.0.1") ::
    [mkZipFile "resolv.conf" (bytes_of "nameserver 127.0.0.53")] /\
  writeFiles [] (Some (set_zipFiles (analyzer_with (fun n => if Nat.eqb n 2 then Some disk_full else None))
              [one_file; mkZipFile "ip-route.txt" (bytes_of "default via 10.0.0.1");
               mkZipFile "resolv.conf" (bytes_of "nameserver 127.0.0.53")])) =
  Value (set_zipWriter
           (set_zipFiles (analyzer_with (fun n => if Nat.eqb n 2 then Some disk_full else None))
              [one_file; mkZipFile "ip-route.txt" (bytes_of "default via 10.0.0.1");
               mkZipFile "resolv.conf" (bytes_of "nameserver 127.0.0.53")])
           (mkZipWriter [entry_of one_file] 3
              (fun n => if Nat.eqb n 2 then Some disk_full else None) false),
         Some (Wrap [] disk_full ("error creating " ++ "ip-route.txt" ++ " in zip file"))).
Proof.
  split; [reflexivity|].
  exact (proj1 (writeFiles_fail_fast []
           (set_zipFiles (analyzer_with (fun n => if Nat.eqb n 2 then Some disk_full else None))
              [one_file; mkZipFile "ip-route.txt" (bytes_of "default via 10.0.0.1");
               mkZipFile "resolv.conf" (bytes_of "nameserver 127.0.0.53")])
           [one_file] (mkZipFile "ip-route.txt" (bytes_of "default via 10.0.0.1"))
           [mkZipFile "resolv.conf" (bytes_of "nameserver 127.0.0.53")] disk_full
           eq_refl
           ltac:(intros n Hn; simpl in Hn; destruct n as [|[|n]]; [reflexivity|reflexivity|lia]))
           eq_refl).
Defined.

Lemma nil_analyzer_panics_witness :
  snd (newAnalyzer [] (fun _ => None) (mkDisk None false)) <> None /\
  fst (main_prologue [] (fun _ => None) (mkDisk None false)) = None /\
  run_ops None (addResolvConf w_fail) = Panic nil_deref.
Proof.
  assert (H : snd (newAnalyzer [] (fun _ => None) (mkDisk None false)) <> None)
    by (simpl; discriminate).
  destruct (nil_analyzer_panics [] (fun _ => None) (mkDisk None false) "prog" w_fail H)
    as (H1 & _ & H3 & _).
  split; [exact H|]. split; [exact H1|].
  rewrite <- H1. apply H3. simpl. tauto.
Defined.

(** * Further properties of [main.go] *)

(** ** A task's calls only append *)

(** X1: on a non-nil analyzer a task's calls run to the end without
    panicking; they append the records of its [storeFile] calls and the
    errors of its [storeError] calls, in call order, and leave the rest of
    the analyzer as it was. *)
Theorem run_ops_appends ops : forall a,
  run_ops (Some a) ops =
  Value (Some (mkAnalyzer (zipWriter_ a) (zipFile_ a)
                 (errors a ++ errs_of ops) (zipFiles a ++ files_of ops))).
Proof.
  induction ops as [|op ops IH]; intros a; simpl.
  - rewrite !app_nil_r. destruct a; reflexivity.
  - destruct op as [nm c|e]; simpl; rewrite IH; simpl; rewrite <- app_assoc; reflexivity.
Qed.

(** ** The store after the barrier *)

Lemma rem_from_insert {A} (sel : list store_op -> list A) worlds gs : forall j k g g',
  gs !! j = Some g ->
  exists pre suf,
    rem_from sel worlds k gs = pre ++ g_rem sel worlds (k + j) g ++ suf /\
    rem_from sel worlds k (<[j := g']> gs) = pre ++ g_rem sel worlds (k + j) g' ++ suf.
Proof.
  induction gs as [|x gs IH]; intros j k g g' H; [discriminate|].
  destruct j as [|j]; simpl in H.
  - injection H as ->. exists [], (rem_from sel worlds (S k) gs).
    rewrite Nat.add_0_r. split; reflexivity.
  - destruct (IH j (S k) g g' H) as (pre & suf & E1 & E2).
    exists (g_rem sel worlds k x ++ pre), suf. simpl.
    rewrite E1, E2, <- !app_assoc, Nat.add_succ_r. split; reflexivity.
Qed.

Lemma rem_from_snoc {A} (sel : list store_op -> list A) worlds gs : forall k g,
  rem_from sel worlds k (gs ++ [g]) =
  rem_from sel worlds k gs ++ g_rem sel worlds (k + length gs) g.
Proof.
  induction gs as [|x gs IH]; intros k g; simpl.
  - rewrite Nat.add_0_r, !app_nil_r. reflexivity.
  - rewrite IH, <- app_assoc, Nat.add_succ_r. reflexivity.
Qed.

Lemma task_outputs_snoc {A} (sel : list store_op -> list A) worlds ts : forall k t,
  task_outputs sel worlds k (ts ++ [t]) =
  task_outputs sel worlds k ts ++ sel (t (worlds (k + length ts))).
Proof.
  induction ts as [|x ts IH]; intros k t; simpl.
  - rewrite Nat.add_0_r, !app_nil_r. reflexivity.
  - rewrite IH, <- app_assoc, Nat.add_succ_r. reflexivity.
Qed.

Lemma rem_from_done {A} (sel : list store_op -> list A) worlds gs : forall k,
  (forall j g, gs !! j = Some g -> g_pc g = GDone) -> rem_from sel worlds k gs = [].
Proof.
  induction gs as [|x gs IH]; intros k H; [reflexivity|]. simpl.
  unfold g_rem. rewrite (H 0 x eq_refl). simpl.
  apply IH. intros j g Hj. exact (H (S j) g Hj).
Qed.

Lemma map_g_task_insert gs : forall k g g',
  gs !! k = Some g -> g_task g' = g_task g ->
  map g_task (<[k := g']> gs) = map g_task gs.
Proof.
  induction gs as [|x gs IH]; intros k g g' H Ht; [discriminate|].
  destruct k as [|k]; simpl in *.
  - injection H as ->. rewrite Ht. reflexivity.
  - rewrite (IH k g g' H Ht). reflexivity.
Qed.

Lemma map_g_task_tasks gs : forall (ts : list probe),
  (forall k g, gs !! k = Some g -> ts !! k = Some (g_task g)) ->
  length gs = length ts -> map g_task gs = ts.
Proof.
  induction gs as [|x gs IH]; intros ts Ht Hl; destruct ts as [|t ts]; simpl in *;
    try discriminate; [reflexivity|].
  pose proof (Ht 0 x eq_refl) as H0. simpl in H0. injection H0 as ->.
  rewrite (IH ts); [reflexivity| |lia].
  intros k g Hk. exact (Ht (S k) g Hk).
Qed.

Section StoreOutputs.
Context {A : Type} (sel : list store_op -> list A) (proj : analyzer -> list A).
Hypothesis sel_nil : sel [] = [].
Hypothesis sel_cons : forall op ops, sel (op :: ops) = sel [op] ++ sel ops.
Hypothesis proj_op : forall a op a', run_op (Some a) op = Value a' -> proj a' = proj a ++ sel [op].

(** What the store holds plus what the goroutines still have to store is,
    up to order, what the store started with plus everything the started
    tasks store. *)
Definition outputs_inv (worlds : nat -> world) (a0 : analyzer) (s : sched) : Prop :=
  Permutation (proj (s_store s) ++ rem_from sel worlds 0 (s_gs s))
              (proj a0 ++ task_outputs sel worlds 0 (map g_task (s_gs s))).

Lemma outputs_inv_step ts worlds a0 s s' :
  step ts worlds s s' -> outputs_inv worlds a0 s -> outputs_inv worlds a0 s'.
Proof.
  unfold outputs_inv.
  destruct 1 as [i gs wg a tr Hi | i gs wg a tr Hi | i t gs wg a tr Hti | gs a tr
                 | pc k t gs wg a tr Hk | pc k t op ops gs wg a a' tr Hk Hop
                 | pc k t gs wg a tr Hk]; simpl; intros H; try exact H.
  - rewrite rem_from_snoc, map_app.
    change (map g_task [mkG t GStart]) with [t].
    rewrite task_outputs_snoc, length_map. simpl.
    rewrite !app_assoc. apply Permutation_app_tail. exact H.
  - rewrite (map_g_task_insert gs k _ (mkG t (GRun (t (worlds k)))) Hk eq_refl).
    destruct (rem_from_insert sel worlds gs k 0 _ (mkG t (GRun (t (worlds k)))) Hk)
      as (pre & suf & E1 & E2).
    rewrite E2. rewrite E1 in H. exact H.
  - rewrite (map_g_task_insert gs k _ (mkG t (GRun ops)) Hk eq_refl).
    destruct (rem_from_insert sel worlds gs k 0 _ (mkG t (GRun ops)) Hk)
      as (pre & suf & E1 & E2).
    rewrite E1 in H. rewrite E2, (proj_op _ _ _ Hop).
    eapply Permutation_trans; [|exact H]. unfold g_rem in *. simpl in *.
    rewrite (sel_cons op ops), <- !app_assoc. apply Permutation_app_head.
    apply Permutation_app_swap_app.
  - rewrite (map_g_task_insert gs k _ (mkG t GDone) Hk eq_refl).
    destruct (rem_from_insert sel worlds gs k 0 _ (mkG t GDone) Hk)
      as (pre & suf & E1 & E2).
    rewrite E1 in H. rewrite E2. unfold g_rem in *. simpl in *.
    rewrite sel_nil in H. exact H.
Qed.

Lemma outputs_inv_reach ts worlds a0 s s' :
  reach ts worlds s s' -> outputs_inv worlds a0 s -> outputs_inv worlds a0 s'.
Proof.
  induction 1 as [s|s1 s2 s3 Hs _ IH]; [auto|].
  intros H. apply IH. exact (outputs_inv_step _ _ _ _ _ Hs H).
Qed.

Lemma outputs_after_barrier ts worlds a0 s :
  reach ts worlds (sched_init a0) s -> s_pc s = MAfter ->
  Permutation (proj (s_store s)) (proj a0 ++ task_outputs sel worlds 0 ts).
Proof.
  intros Hr Hpc.
  assert (H0 : outputs_inv worlds a0 (sched_init a0)).
  { unfold outputs_inv. simpl. rewrite !app_nil_r. reflexivity. }
  pose proof (outputs_inv_reach _ _ _ _ _ Hr H0) as H. unfold outputs_inv in H.
  destruct (sched_inv_reach _ _ a0 _ _ Hr (sched_inv_init ts a0)) as [Ht Hl _ _ Ha _].
  rewrite Hpc in Hl.
  rewrite (rem_from_done sel worlds _ 0 (Ha Hpc)), app_nil_r in H.
  rewrite (map_g_task_tasks _ ts Ht Hl) in H. exact H.
Qed.
End StoreOutputs.

Lemma files_of_cons op ops : files_of (op :: ops) = files_of [op] ++ files_of ops.
Proof. destruct op; reflexivity. Qed.

Lemma errs_of_cons op ops : errs_of (op :: ops) = errs_of [op] ++ errs_of ops.
Proof. destruct op; reflexivity. Qed.

Lemma run_op_files a op a' : run_op (Some a) op = Value a' -> zipFiles a' = zipFiles a ++ files_of [op].
Proof. destruct op; simpl; intros H; injection H as <-; simpl; [reflexivity|rewrite app_nil_r; reflexivity]. Qed.

Lemma run_op_errs a op a' : run_op (Some a) op = Value a' -> errors a' = errors a ++ errs_of [op].
Proof. destruct op; simpl; intros H; injection H as <-; simpl; [rewrite app_nil_r|]; reflexivity. Qed.

(** X2: in every interleaving of [main]'s goroutines, once [wg.Wait()] has
    returned the analyzer holds exactly the records and the errors it
    started with plus those every task stored, each once, in some order. *)
Theorem store_after_barrier ts worlds a0 s :
  reach ts worlds (sched_init a0) s -> s_pc s = MAfter ->
  Permutation (zipFiles (s_store s)) (zipFiles a0 ++ task_outputs files_of worlds 0 ts) /\
  Permutation (errors (s_store s)) (errors a0 ++ task_outputs errs_of worlds 0 ts).
Proof.
  intros Hr Hpc. split.
  - exact (outputs_after_barrier files_of zipFiles eq_refl files_of_cons run_op_files
             ts worlds a0 s Hr Hpc).
  - exact (outputs_after_barrier errs_of errors eq_refl errs_of_cons run_op_errs
             ts worlds a0 s Hr Hpc).
Qed.

(** ** Output names of [main]'s tasks *)

Lemma createStoreCommand_files f command args w :
  files_of (createStoreCommand f command args w) =
  [mkZipFile f (fst (combined_output w command args))].
Proof.
  unfold createStoreCommand. destruct (combined_output w command args) as [o [e|]]; reflexivity.
Qed.

Lemma addIP_names w :
  map name (files_of (addIP w)) = [] \/ map name (files_of (addIP w)) = ["ip-address.txt"%string].
Proof. unfold addIP. destruct (http_get w _) as [[b|e]|e]; simpl; auto. Qed.

Lemma addResolvConf_names w :
  map name (files_of (addResolvConf w)) = [] \/
  map name (files_of (addResolvConf w)) = ["resolv.conf"%string].
Proof. unfold addResolvConf. destruct (read_file w _); simpl; auto. Qed.

Lemma tasks_output_names argv0 worlds k :
  map name (task_outputs files_of worlds k (tasks argv0)) =
  command_names ++ map name (files_of (addIP (worlds (17 + k)))) ++
  map name (files_of (addResolvConf (worlds (18 + k)))).
Proof.
  unfold tasks. cbn [task_outputs]. rewrite !createStoreCommand_files.
  rewrite app_nil_r, !map_app. reflexivity.
Qed.

Lemma output_names_nodup (l1 l2 : list string) :
  (l1 = [] \/ l1 = ["ip-address.txt"%string]) ->
  (l2 = [] \/ l2 = ["resolv.conf"%string]) ->
  List.NoDup (errors_txt :: command_names ++ l1 ++ l2).
Proof.
  intros [-> | ->] [-> | ->]; unfold errors_txt, command_names, host;
    simpl; repeat constructor; simpl; intuition discriminate.
Qed.

Lemma task_outputs_in {A} (sel : list store_op -> list A) worlds ts :
  forall i k t x, ts !! k = Some t -> In x (sel (t (worlds (i + k)))) ->
  In x (task_outputs sel worlds i ts).
Proof.
  induction ts as [|t0 ts IH]; intros i k t x Hk Hx; [discriminate|].
  destruct k as [|k]; simpl in Hk |- *.
  - injection Hk as <-. rewrite Nat.add_0_r in Hx. apply in_or_app. left. exact Hx.
  - apply in_or_app. right. apply (IH (S i) k t x Hk).
    replace (S i + k) with (i + S k) by lia. exact Hx.
Qed.

(** X3: in [main]'s configuration, once [wg.Wait()] has returned (from an
    empty store), each of the first 17 tasks is a command probe whose
    record, the command's combined output under the probe's name, is in
    the store; and no two records have the same name or the name
    [errors.txt], so that record is the only one under its name. *)
Theorem main_store_records argv0 worlds a0 s :
  reach (tasks argv0) worlds (sched_init a0) s -> s_pc s = MAfter -> zipFiles a0 = [] ->
  (forall k, k < 17 -> exists f command args,
     tasks argv0 !! k = Some (createStoreCommand f command args) /\
     In (mkZipFile f (fst (combined_output (worlds k) command args))) (zipFiles (s_store s))) /\
  List.NoDup (errors_txt :: map name (zipFiles (s_store s))).
Proof.
  intros Hr Hpc H0.
  pose proof (outputs_after_barrier files_of zipFiles eq_refl files_of_cons run_op_files
                _ worlds a0 s Hr Hpc) as P.
  rewrite H0, app_nil_l in P.
  split.
  - intros k Hk.
    assert (Hin : forall t, tasks argv0 !! k = Some t ->
                  forall x, In x (files_of (t (worlds k))) -> In x (zipFiles (s_store s))).
    { intros t Ht x Hx. apply (Permutation_in _ (Permutation_sym P)).
      apply (task_outputs_in files_of worlds _ 0 k t x Ht). exact Hx. }
    do 17 (destruct k as [|k];
      [do 3 eexists; split; [reflexivity|];
       eapply Hin; [reflexivity|]; rewrite createStoreCommand_files; left; reflexivity|]).
    lia.
  - apply (Permutation_map name) in P. rewrite tasks_output_names in P.
    apply (Permutation_NoDup (l := errors_txt :: command_names ++
             map name (files_of (addIP (worlds (17 + 0)))) ++
             map name (files_of (addResolvConf (worlds (18 + 0)))))).
    + apply perm_skip. apply Permutation_sym. exact P.
    + apply output_names_nodup; [apply addIP_names | apply addResolvConf_names].
Qed.

(** ** The tail of [main] without I/O faults *)

Lemma main_tail_nofault st a :
  (forall n, zw_fault (zipWriter_ a) n = None) ->
  exists a3, main_tail st (Some a) = Value (a3, []) /\
    zw_entries (zipWriter_ a3) =
      zw_entries (zipWriter_ a) ++ map entry_of (zipFiles a) ++
      match errors a with
      | [] => []
      | _ => [(errors_txt, bytes_of (report (errors a)))]
      end /\
    zw_closed (zipWriter_ a3) = true /\ f_closed (zipFile_ a3) = true.
Proof.
  intros F. unfold main_tail. rewrite addErrors_spec.
  destruct (errors a) as [|e es] eqn:E.
  - destruct (writeFiles_loop_nofault st (zipFiles a) (zipWriter_ a) F) as (w' & Ew & En & Ef).
    unfold writeFiles, deref. rewrite Ew.
    unfold close, deref. simpl. rewrite Ef, F.
    eexists. split; [reflexivity|]. simpl. rewrite En, app_nil_r. auto.
  - set (a1 := set_zipFiles a (zipFiles a ++ [mkZipFile errors_txt (bytes_of (report (e :: es)))])).
    destruct (writeFiles_loop_nofault st (zipFiles a1) (zipWriter_ a1) F) as (w' & Ew & En & Ef).
    unfold writeFiles, deref. rewrite Ew.
    unfold close, deref. simpl. rewrite Ef. simpl. rewrite F.
    eexists. split; [reflexivity|]. simpl. rewrite En. simpl.
    rewrite map_app. auto.
Qed.

(** X4: with no error collected and no I/O fault, [main]'s tail writes
    exactly the collected records, in order, adds no [errors.txt], logs
    nothing and closes both the zip writer and the file. *)
Theorem main_tail_no_errors st a :
  errors a = [] ->
  (forall n, zw_fault (zipWriter_ a) n = None) ->
  exists a3, main_tail st (Some a) = Value (a3, []) /\
    zw_entries (zipWriter_ a3) = zw_entries (zipWriter_ a) ++ map entry_of (zipFiles a) /\
    zw_closed (zipWriter_ a3) = true /\ f_closed (zipFile_ a3) = true.
Proof.
  intros He F. destruct (main_tail_nofault st a F) as (a3 & H1 & H2 & H3).
  rewrite He, app_nil_r in H2. exists a3. auto.
Qed.

Lemma main_store_names_nodup argv0 worlds a0 s :
  reach (tasks argv0) worlds (sched_init a0) s -> s_pc s = MAfter -> zipFiles a0 = [] ->
  List.NoDup (errors_txt :: map name (zipFiles (s_store s))).
Proof.
  intros Hr Hpc H0.
  pose proof (outputs_after_barrier files_of zipFiles eq_refl files_of_cons run_op_files
                _ worlds a0 s Hr Hpc) as P.
  rewrite H0, app_nil_l in P.
  apply (Permutation_map name) in P. rewrite tasks_output_names in P.
  apply (Permutation_NoDup (l := errors_txt :: command_names ++
           map name (files_of (addIP (worlds (17 + 0)))) ++
           map name (files_of (addResolvConf (worlds (18 + 0)))))).
  - apply perm_skip. apply Permutation_sym. exact P.
  - apply output_names_nodup; [apply addIP_names | apply addResolvConf_names].
Qed.

(** X5: a whole run of [main] from a fresh analyzer, with no I/O fault on
    the archive, produces an archive whose entry names are pairwise
    distinct, logs nothing and closes the archive. *)
Theorem main_archive_names_distinct argv0 worlds a0 st s :
  reach (tasks argv0) worlds (sched_init a0) s -> s_pc s = MAfter ->
  zipFiles a0 = [] -> zw_entries (zipWriter_ a0) = [] ->
  (forall n, zw_fault (zipWriter_ a0) n = None) ->
  exists a3, main_tail st (Some (s_store s)) = Value (a3, []) /\
    List.NoDup (map fst (zw_entries (zipWriter_ a3))) /\
    zw_closed (zipWriter_ a3) = true /\ f_closed (zipFile_ a3) = true.
Proof.
  intros Hr Hpc H0 He F.
  pose proof (main_store_names_nodup _ _ _ _ Hr Hpc H0) as N.
  destruct (sched_inv_reach _ _ a0 _ _ Hr (sched_inv_init _ a0)) as [_ _ _ _ _ Hwr].
  assert (F' : forall n, zw_fault (zipWriter_ (s_store s)) n = None).
  { intros n. rewrite Hwr. apply F. }
  destruct (main_tail_nofault st _ F') as (a3 & H1 & H2 & H3).
  exists a3. split; [exact H1|]. split; [|exact H3].
  rewrite H2, Hwr, He, app_nil_l, map_app.
  assert (Hm : map fst (map entry_of (zipFiles (s_store s))) = map name (zipFiles (s_store s))).
  { rewrite map_map. reflexivity. }
  rewrite Hm.
  inversion N as [|x l Hnin Hnd]; subst.
  destruct (errors (s_store s)); simpl.
  - rewrite app_nil_r. exact Hnd.
  - apply (Permutation_NoDup (Permutation_cons_append _ _)). exact N.
Qed.

Lemma store_after_barrier_witness :
  reach demo_tasks demo_worlds (sched_init empty_analyzer) demo_final /\
  s_pc demo_final = MAfter /\
  Permutation (zipFiles (s_store demo_final))
              (zipFiles empty_analyzer ++ task_outputs files_of demo_worlds 0 demo_tasks) /\
  Permutation (errors (s_store demo_final))
              (errors empty_analyzer ++ task_outputs errs_of demo_worlds 0 demo_tasks).
Proof.
  split; [exact demo_reach|]. split; [reflexivity|].
  exact (store_after_barrier demo_tasks demo_worlds empty_analyzer demo_final demo_reach eq_refl).
Defined.

Lemma main_store_records_witness :
  reach (tasks "mm-network-analyzer") (fun _ => w_ok) (sched_init empty_analyzer)
        (proj1_sig main_run_ok) /\
  s_pc (proj1_sig main_run_ok) = MAfter /\ zipFiles empty_analyzer = [] /\
  (forall k, k < 17 -> exists f command args,
     tasks "mm-network-analyzer" !! k = Some (createStoreCommand f command args) /\
     In (mkZipFile f (fst (combined_output w_ok command args)))
        (zipFiles (s_store (proj1_sig main_run_ok)))) /\
  List.NoDup (errors_txt :: map name (zipFiles (s_store (proj1_sig main_run_ok)))).
Proof.
  split; [exact (proj2_sig main_run_ok)|].
  split; [vm_compute; reflexivity|]. split; [reflexivity|].
  exact (main_store_records _ (fun _ => w_ok) empty_analyzer _ (proj2_sig main_run_ok)
           ltac:(vm_compute; reflexivity) eq_refl).
Defined.

Lemma main_tail_no_errors_witness :
  errors (set_zipFiles empty_analyzer [one_file]) = [] /\
  exists a3, main_tail [] (Some (set_zipFiles empty_analyzer [one_file])) = Value (a3, []) /\
    zw_entries (zipWriter_ a3) = [entry_of one_file] /\
    zw_closed (zipWriter_ a3) = true /\ f_closed (zipFile_ a3) = true.
Proof.
  split; [reflexivity|].
  exact (main_tail_no_errors [] (set_zipFiles empty_analyzer [one_file]) eq_refl (fun _ => eq_refl)).
Defined.

Lemma main_archive_names_distinct_witness :
  reach (tasks "mm-network-analyzer") (fun _ => w_ok) (sched_init empty_analyzer)
        (proj1_sig main_run_ok) /\
  s_pc (proj1_sig main_run_ok) = MAfter /\
  exists a3, main_tail [] (Some (s_store (proj1_sig main_run_ok))) = Value (a3, []) /\
    List.NoDup (map fst (zw_entries (zipWriter_ a3))) /\
    zw_closed (zipWriter_ a3) = true /\ f_closed (zipFile_ a3) = true.
Proof.
  split; [exact (proj2_sig main_run_ok)|].
  split; [vm_compute; reflexivity|].
  exact (main_archive_names_distinct _ _ empty_analyzer [] _ (proj2_sig main_run_ok)
           ltac:(vm_compute; reflexivity) eq_refl eq_refl (fun _ => eq_refl)).
Defined.

(** ** A full disk behind the buffered writer *)


(** ** Opening the archive, in general *)

(** [newAnalyzer] in the model of the disk: [OpenFile] without [O_TRUNC]. *)
Lemma newAnalyzer_spec st fault d :
  newAnalyzer st fault d =
  if disk_writable d then
    (Some (mkAnalyzer (mkZipWriter [] 0 fault false)
                      (mkOsFile (match disk_file d with Some old => old | None => [] end) 0 false)
                      [] []), None)
  else
    (None, Some (Wrap st (EBase ("open " ++ zipFileName ++ ": permission denied"))
                      ("error opening " ++ zipFileName))).
Proof.
  unfold newAnalyzer, OpenFile.
  destruct (disk_writable d); simpl; [|reflexivity].
  destruct (disk_file d); reflexivity.
Qed.

Lemma file_write_all_prefix chunks : forall p r c,
  file_write_all (mkOsFile (p ++ r) (length p) c) chunks =
  mkOsFile (p ++ concat chunks ++ skipn (length (concat chunks)) r)
           (length p + length (concat chunks)) c.
Proof.
  induction chunks as [|d ds IH]; intros p r c; simpl.
  - rewrite Nat.add_0_r. reflexivity.
  - unfold file_write. simpl.
    rewrite firstn_app, Nat.sub_diag, firstn_O, firstn_all, app_nil_r.
    rewrite skipn_app, skipn_all2 by lia. rewrite Nat.add_comm, Nat.add_sub, app_nil_l.
    replace (p ++ d ++ skipn (length d) r) with ((p ++ d) ++ skipn (length d) r)
      by (rewrite app_assoc; reflexivity).
    replace (length d + length p) with (length (p ++ d)) by (rewrite length_app; lia).
    rewrite IH, skipn_skipn, !length_app, <- !app_assoc, (Nat.add_comm (length (concat ds))).
    f_equal. lia.
Qed.

(** X8: once [newAnalyzer] has opened the archive file, writing chunks
    through it leaves the file holding the written bytes followed by
    whatever old bytes lie past them: the old contents survive exactly
    when they are longer than the new archive. *)
Theorem newAnalyzer_overwrites_prefix st fault d a chunks :
  newAnalyzer st fault d = (Some a, None) ->
  f_data (file_write_all (zipFile_ a) chunks) =
    concat chunks ++ skipn (length (concat chunks))
                           (match disk_file d with Some old => old | None => [] end) /\
  f_off (file_write_all (zipFile_ a) chunks) = length (concat chunks).
Proof.
  rewrite newAnalyzer_spec. destruct (disk_writable d); [|discriminate].
  intros H. injection H as <-. cbn [zipFile_].
  pose proof (file_write_all_prefix chunks [] (match disk_file d with Some old => old | None => [] end) false) as E.
  split; [exact (f_equal f_data E) | exact (f_equal f_off E)].
Qed.


Lemma newAnalyzer_overwrites_prefix_witness :
  newAnalyzer [] (fun _ => None) (mkDisk (Some old_archive) true) =
    (Some (mkAnalyzer (NewWriter (fun _ => None)) (mkOsFile old_archive 0 false) [] []), None) /\
  f_data (file_write_all (mkOsFile old_archive 0 false) [new_archive]) =
    new_archive ++ skipn (length new_archive) old_archive /\
  f_off (file_write_all (mkOsFile old_archive 0 false) [new_archive]) = length new_archive.
Proof.
  split; [reflexivity|].
  exact (newAnalyzer_overwrites_prefix [] (fun _ => None) (mkDisk (Some old_archive) true)
           (mkAnalyzer (NewWriter (fun _ => None)) (mkOsFile old_archive 0 false) [] [])
           [new_archive] eq_refl).
Defined.

(** ** No deadlock before the barrier *)

(** X9: the fan-out of [main] never gets stuck: in every state reachable
    from the start, until the main goroutine has passed [wg.Wait()], the
    main goroutine or some goroutine that has not called [wg.Done()] can
    take a step. *)
Theorem main_never_stuck ts worlds a0 s :
  reach ts worlds (sched_init a0) s -> s_pc s <> MAfter ->
  exists s', step ts worlds s s'.
Proof.
  intros Hr Hpc.
  destruct (sched_inv_reach _ _ a0 _ _ Hr (sched_inv_init _ a0)) as [Ht Hl Hw _ _ _].
  destruct s as [pc gs wg a tr]; simpl in *.
  destruct pc as [i|i| |]; [| | |congruence].
  - destruct (Nat.lt_ge_cases i (length ts)) as [Hi|Hi].
    + eexists. apply st_add. exact Hi.
    + eexists. apply st_exit. exact Hi.
  - destruct Hl as [_ Hi].
    destruct (lookup_lt_is_Some_2 ts i Hi) as [t Ht'].
    eexists. apply st_go. exact Ht'.
  - simpl in Hw. rewrite Nat.add_0_r in Hw.
    destruct wg as [|wg].
    + eexists. apply st_wait.
    + destruct (pending_pos gs ltac:(lia)) as (k & [t gp] & Hk & Hd).
      destruct gp as [|[|op ops]|]; simpl in Hd; [| | |discriminate].
      * eexists. apply st_call. exact Hk.
      * eexists. apply st_done. exact Hk.
      * destruct (run_op_some a op) as [a' Ha'].
        eexists. eapply st_op; [exact Hk|exact Ha'].
Qed.

(** Main has run its loop over the one task and waits at [wg.Wait()] with
    the goroutine not yet started and the counter at 1: main cannot move,
    the goroutine can. *)
Lemma main_never_stuck_witness :
  reach demo_tasks demo_worlds (sched_init empty_analyzer)
        (mkSched MWait [mkG addIP GStart] 1 empty_analyzer []) /\
  s_pc (mkSched MWait [mkG addIP GStart] 1 empty_analyzer []) <> MAfter /\
  exists s', step demo_tasks demo_worlds (mkSched MWait [mkG addIP GStart] 1 empty_analyzer []) s'.
Proof.
  assert (Hr : reach demo_tasks demo_worlds (sched_init empty_analyzer)
                 (mkSched MWait [mkG addIP GStart] 1 empty_analyzer [])).
  { eapply reach_step; [apply st_add; simpl; lia|].
    eapply reach_step; [apply st_go; reflexivity|].
    eapply reach_step; [apply st_exit; simpl; lia|].
    apply reach_refl. }
  split; [exact Hr|]. split; [discriminate|].
  exact (main_never_stuck demo_tasks demo_worlds empty_analyzer _ Hr ltac:(discriminate)).
Defined.
